(** * Kinematics and pick-and-place sequencing of the 4-DOF articulated
    manipulator of [manipulator_project] ([robot.py], [simulation.py]).

    Numbers are modelled as real numbers (idealised arithmetic: no
    rounding), [np.arctan2] as [atan2] below, [np.clip] as [clip]. *)

From Stdlib Require Import Reals Lra Lia List ZArith.
Import ListNotations.
Open Scope R_scope.

(** ** Numeric primitives *)

(** [np.arctan2 y x] (C [atan2]); signed zeros are not distinguished, so
    [atan2 0 x] for [x < 0] is [PI] and [atan2 0 0] is [0]. *)
Definition atan2 (y x : R) : R :=
  if Rlt_dec 0 x then atan (y / x)
  else if Rlt_dec x 0 then
    (if Rle_dec 0 y then atan (y / x) + PI else atan (y / x) - PI)
  else if Rlt_dec 0 y then PI / 2
  else if Rlt_dec y 0 then - (PI / 2)
  else 0.

(** [np.clip a a_min a_max] = [minimum(maximum(a, a_min), a_max)]. *)
Definition clip (a lo hi : R) : R := Rmin (Rmax a lo) hi.

(** The literal [1e-6] of [inverse_kinematics]. *)
Definition eps : R := / 1000000.

(** ** robot.py *)

Record vec3 := mkV { vx : R; vy : R; vz : R }.

(** A joint vector [np.array([q1, q2, q3, q4])]. *)
Record jvec := mkJ { j1 : R; j2 : R; j3 : R; j4 : R }.

Record ArticulatedRRRP := mkRobot {
  L1 : R; L2 : R; L3 : R; z_base : R; z_min : R; z_max : R }.

(** [ArticulatedRRRP()] with the default arguments of [__init__]. *)
Definition default_robot : ArticulatedRRRP :=
  mkRobot 0.30 0.25 0.18 0.25 (-0.15) 0.15.

(** The five rows of [np.vstack([p0, p1, p2, p3, p4])]. *)
Record chain := mkChain { p0 : vec3; p1 : vec3; p2 : vec3; p3 : vec3; p4 : vec3 }.

Definition vadd (a b : vec3) : vec3 :=
  mkV (vx a + vx b) (vy a + vy b) (vz a + vz b).

Definition forward_kinematics (rb : ArticulatedRRRP) (q : jvec) : chain :=
  let '(q1, q2, q3, q4) := (j1 q, j2 q, j3 q, j4 q) in
  let p0 := mkV 0 0 0 in
  let p1 := mkV 0 0 (z_base rb) in
  let t1 := q1 in
  let t2 := q1 + q2 in
  let t3 := q1 + q2 + q3 in
  let p2 := vadd p1 (mkV (L1 rb * cos t1) (L1 rb * sin t1) 0) in
  let p3 := vadd p2 (mkV (L2 rb * cos t2) (L2 rb * sin t2) 0) in
  let wrist := vadd p3 (mkV (L3 rb * cos t3) (L3 rb * sin t3) 0) in
  let q4_clamped := clip q4 (z_min rb) (z_max rb) in
  let p4 := mkV (vx wrist) (vy wrist) (z_base rb + q4_clamped) in
  mkChain p0 p1 p2 p3 p4.

(** [joints[-1]], the end-effector row. *)
Definition ee (c : chain) : vec3 := p4 c.

(** Lines 91-95: heading to the target and the wrist XY position. *)
Definition wrist_xy (rb : ArticulatedRRRP) (x y : R) : R * R * R :=
  let phi := atan2 y x in
  let xw := x - L3 rb * cos phi in
  let yw := y - L3 rb * sin phi in
  (phi, xw, yw).

Definition max_r (rb : ArticulatedRRRP) : R := L1 rb + L2 rb - eps.

(** Lines 99-108: the radial clamp of the wrist position; returns the
    (possibly scaled) [xw], [yw] and [r2]. *)
Definition clamp_reach (rb : ArticulatedRRRP) (xw yw : R) : R * R * R :=
  let r2 := xw ^ 2 + yw ^ 2 in
  let r := sqrt r2 in
  let mr := max_r rb in
  if Rlt_dec mr r then
    let xw' := xw * (mr / r) in
    let yw' := yw * (mr / r) in
    let r' := mr in
    (xw', yw', r' * r')
  else (xw, yw, r2).

(** Lines 110-119: the cosine law for the two-link planar arm; returns
    [(q1, q2)]. *)
Definition cosine_law (rb : ArticulatedRRRP) (xw yw r2 : R) : R * R :=
  let c2 := (r2 - L1 rb ^ 2 - L2 rb ^ 2) / (2 * L1 rb * L2 rb) in
  let c2 := clip c2 (-1) 1 in
  let s2 := sqrt (1 - c2 ^ 2) in
  let q2 := atan2 s2 c2 in
  let k1 := L1 rb + L2 rb * c2 in
  let k2 := L2 rb * s2 in
  let q1 := atan2 yw xw - atan2 k2 k1 in
  (q1, q2).

Definition inverse_kinematics (rb : ArticulatedRRRP) (target : vec3) : jvec :=
  let '(x, y, z) := (vx target, vy target, vz target) in
  let q4 := clip (z - z_base rb) (z_min rb) (z_max rb) in
  let '(phi, xw, yw) := wrist_xy rb x y in
  let '(xw, yw, r2) := clamp_reach rb xw yw in
  let '(q1, q2) := cosine_law rb xw yw r2 in
  let q3 := phi - q1 - q2 in
  mkJ q1 q2 q3 q4.

(** ** simulation.py *)

(** The state of [ManipulatorSimulation] that the core reads and writes:
    [q_current], the rows of [objects_pos] and the [object_done] flags.
    Rendering state (figure, scatters, robot line) is left out. *)
Record sim := mkSim {
  q_current : jvec; objects_pos : list vec3; object_done : list bool }.

Inductive exn := ZeroDivisionError | IndexError.

(** What one iteration of the loop of [_animate_segment] shows: the
    interpolated joint vector [q], [joints = forward_kinematics(q)], the
    [carry_index] argument, and [objects_pos] after the iteration. *)
Record frame := mkFrame {
  fr_q : jvec; fr_joints : chain; fr_carry : option nat; fr_objs : list vec3 }.

(** State, Python exceptions and the trace of emitted frames. *)
Definition M (A : Type) : Type := sim -> exn + (A * list frame * sim).

Definition ret {A} (a : A) : M A := fun s => inr (a, [], s).

Definition bind {A B} (m : M A) (k : A -> M B) : M B := fun s =>
  match m s with
  | inl e => inl e
  | inr (a, t1, s1) =>
      match k a s1 with
      | inl e => inl e
      | inr (b, t2, s2) => inr (b, t1 ++ t2, s2)
      end
  end.

Notation "x <- m ;; k" := (bind m (fun x => k))
  (at level 61, m at next level, right associativity).
Notation "m ;; k" := (bind m (fun _ => k)) (at level 61, right associativity).

Definition get : M sim := fun s => inr (s, [], s).
Definition put (s' : sim) : M unit := fun _ => inr (tt, [], s').
Definition raise {A} (e : exn) : M A := fun _ => inl e.
Definition emit (f : frame) : M unit := fun s => inr (tt, [f], s).

(** [l[k]] on a Python list / numpy array, for a non-negative index. *)
Definition py_get {A} (l : list A) (k : nat) : M A :=
  match nth_error l k with Some a => ret a | None => raise IndexError end.

Fixpoint list_set {A} (l : list A) (k : nat) (v : A) : option (list A) :=
  match l, k with
  | [], _ => None
  | _ :: t, O => Some (v :: t)
  | h :: t, S k' => option_map (cons h) (list_set t k' v)
  end.

(** [l[k] = v]. *)
Definition py_set {A} (l : list A) (k : nat) (v : A) : M (list A) :=
  match list_set l k v with Some l' => ret l' | None => raise IndexError end.

(** Python 3 true division [i / n] of two ints. *)
Definition py_div (i n : Z) : M R :=
  if Z.eqb n 0 then raise ZeroDivisionError else ret (IZR i / IZR n).

(** [range(n)]. *)
Definition range (n : Z) : list Z := map Z.of_nat (seq 0 (Z.to_nat n)).

Fixpoint for_each (l : list Z) (body : Z -> M unit) : M unit :=
  match l with
  | [] => ret tt
  | i :: l' => body i ;; for_each l' body
  end.

Definition set_q (s : sim) (q : jvec) : sim :=
  mkSim q (objects_pos s) (object_done s).
Definition set_objs (s : sim) (o : list vec3) : sim :=
  mkSim (q_current s) o (object_done s).
Definition set_done (s : sim) (d : list bool) : sim :=
  mkSim (q_current s) (objects_pos s) d.

(** [self.robot = ArticulatedRRRP()]. *)
Definition robot : ArticulatedRRRP := default_robot.

(** [(1.0 - alpha) * q_start + alpha * q_target]. *)
Definition lerp (alpha : R) (qs qt : jvec) : jvec :=
  mkJ ((1 - alpha) * j1 qs + alpha * j1 qt) ((1 - alpha) * j2 qs + alpha * j2 qt)
      ((1 - alpha) * j3 qs + alpha * j3 qt) ((1 - alpha) * j4 qs + alpha * j4 qt).

(** One iteration of the loop of [_animate_segment]. *)
Definition animate_step (q_start q_target : jvec) (steps : Z)
    (carry_index : option nat) (i : Z) : M unit :=
  alpha <- py_div i steps ;;
  let q := lerp alpha q_start q_target in
  let joints := forward_kinematics robot q in
  (match carry_index with
   | Some k =>
       s <- get ;;
       objs <- py_set (objects_pos s) k (ee joints) ;;
       put (set_objs s objs)
   | None => ret tt
   end) ;;
  s <- get ;;
  emit (mkFrame q joints carry_index (objects_pos s)).

Definition animate_segment (q_target : jvec) (steps : Z)
    (carry_index : option nat) : M unit :=
  s <- get ;;
  let q_start := q_current s in
  for_each (range (steps + 1)) (animate_step q_start q_target steps carry_index) ;;
  s <- get ;;
  put (set_q s q_target).

Definition q_home : jvec := mkJ 0 0 0 0.35.

Definition floor_positions : list vec3 :=
  [mkV 0.35 (-0.15) 0.02; mkV 0.40 0.00 0.02; mkV 0.35 0.15 0.02].

Definition shelf_x : R := 0.40.
Definition shelf_y : R := 0.52.
Definition shelf_levels : list R := [0.25; 0.45; 0.65].

Definition shelf_positions : list vec3 :=
  map (fun z => mkV shelf_x shelf_y z) shelf_levels.

(** The state after [__init__] (and [_create_objects]). *)
Definition init_sim : sim := mkSim q_home floor_positions [false; false; false].

Definition pick_and_place (obj_idx : nat) : M unit :=
  s <- get ;;
  d <- py_get (object_done s) obj_idx ;;
  if d then ret tt else
  pick_pos <- py_get floor_positions obj_idx ;;
  place_pos <- py_get shelf_positions obj_idx ;;
  let safe_height := 0.75 in
  let pre_pick := mkV (vx pick_pos) (vy pick_pos) safe_height in
  let q_pre_pick := inverse_kinematics robot pre_pick in
  let q_pick := inverse_kinematics robot pick_pos in
  let pre_place := mkV (vx place_pos) (vy place_pos) safe_height in
  let q_pre_place := inverse_kinematics robot pre_place in
  let q_place := inverse_kinematics robot place_pos in
  animate_segment q_pre_pick 60 None ;;
  animate_segment q_pick 40 None ;;
  let carry := obj_idx in
  animate_segment q_pre_pick 40 (Some carry) ;;
  animate_segment q_pre_place 60 (Some carry) ;;
  animate_segment q_place 40 (Some carry) ;;
  s <- get ;;
  objs <- py_set (objects_pos s) carry place_pos ;;
  put (set_objs s objs) ;;
  s <- get ;;
  dn <- py_set (object_done s) carry true ;;
  put (set_done s dn) ;;
  animate_segment q_pre_place 40 None.

Definition go_home : M unit := animate_segment q_home 60 None.

(** ** Predicates used in the statements *)

(** [carry_index] is [None] or a valid row of [objects_pos]. *)
Definition carry_ok (c : option nat) (objs : list vec3) : Prop :=
  match c with None => True | Some k => (k < length objs)%nat end.

(** A frame shows [forward_kinematics(q)], carries the [carry_index] of its
    segment, and a carried object sits on the end effector. *)
Definition frame_ok (c : option nat) (f : frame) : Prop :=
  fr_joints f = forward_kinematics robot (fr_q f) /\ fr_carry f = c /\
  (forall k, c = Some k -> nth_error (fr_objs f) k = Some (ee (fr_joints f))).

(** Link lengths for which the radial clamp lands inside the annulus of the
    two-link arm, and a non-empty lift range. *)
Definition geometry_ok (rb : ArticulatedRRRP) : Prop :=
  0 < L2 rb < L1 rb /\ eps < 2 * L2 rb /\ z_min rb <= z_max rb.

(** Squared radius of the wrist position computed by [inverse_kinematics]
    (before the radial clamp). *)
Definition wrist_r2 (rb : ArticulatedRRRP) (x y : R) : R :=
  let '(_, xw, yw) := wrist_xy rb x y in xw ^ 2 + yw ^ 2.

(** What a segment with [carry_index = c] may change besides [q_current]:
    only the row [c] of [objects_pos]; lengths and [object_done] stay. *)
Definition keeps_except (c : option nat) (s s' : sim) : Prop :=
  length (objects_pos s') = length (objects_pos s) /\
  object_done s' = object_done s /\
  (forall j, c <> Some j -> nth_error (objects_pos s') j = nth_error (objects_pos s) j).

(** ** Lemmas on the numeric primitives *)

Lemma clip_bounds a lo hi : lo <= hi -> lo <= clip a lo hi <= hi.
Proof.
  intros H; unfold clip.
  apply Rmax_case_strong; apply Rmin_case_strong; intros; lra.
Qed.

Lemma clip_id a lo hi : lo <= a <= hi -> clip a lo hi = a.
Proof.
  intros H; unfold clip.
  rewrite Rmax_left by lra; rewrite Rmin_left by lra; reflexivity.
Qed.

Lemma clip_above a lo hi : lo <= hi -> hi <= a -> clip a lo hi = hi.
Proof.
  intros H1 H2; unfold clip.
  rewrite Rmax_left by lra; rewrite Rmin_right by lra; reflexivity.
Qed.

Lemma atan_nonneg u : 0 <= u -> 0 <= atan u.
Proof.
  intros H; destruct (Req_dec u 0) as [->|Hn].
  - rewrite atan_0; lra.
  - rewrite <- atan_0; left; apply atan_increasing; lra.
Qed.

Lemma atan_nonpos u : u <= 0 -> atan u <= 0.
Proof.
  intros H; replace u with (- - u) by ring; rewrite atan_opp.
  pose proof (atan_nonneg (- u)); lra.
Qed.

Lemma atan2_nonneg_range y x : 0 <= y -> 0 <= atan2 y x <= PI.
Proof.
  intros Hy; pose proof PI_RGT_0 as Hpi; unfold atan2.
  destruct (Rlt_dec 0 x) as [Hx|Hx].
  - pose proof (atan_bound (y / x)).
    assert (0 <= y / x) by (unfold Rdiv; apply Rmult_le_pos; [lra|left; apply Rinv_0_lt_compat; lra]).
    pose proof (atan_nonneg (y / x)); lra.
  - destruct (Rlt_dec x 0) as [Hx'|Hx'].
    + destruct (Rle_dec 0 y) as [_|]; [|lra].
      pose proof (atan_bound (y / x)).
      assert (y / x <= 0).
      { unfold Rdiv; replace (y * / x) with (- (y * / - x)) by (field; lra).
        assert (0 <= y * / - x).
        { apply Rmult_le_pos; [lra|left; apply Rinv_0_lt_compat; lra]. }
        lra. }
      pose proof (atan_nonpos (y / x)); lra.
    + destruct (Rlt_dec 0 y); [lra|].
      destruct (Rlt_dec y 0); lra.
Qed.

Lemma sqrt_scale x u : 0 < x -> sqrt ((x * x) * (1 + u²)) = x * sqrt (1 + u²).
Proof.
  intros Hx; rewrite sqrt_mult_alt by nra; rewrite sqrt_square by lra; reflexivity.
Qed.

Lemma sqrt_1_plus_pos u : 0 < sqrt (1 + u²).
Proof. apply sqrt_lt_R0; pose proof (Rle_0_sqr u); lra. Qed.

(** [atan2 y x] is the polar angle of [(x, y)]. *)
Lemma atan2_polar y x :
  0 < x ^ 2 + y ^ 2 ->
  cos (atan2 y x) * sqrt (x ^ 2 + y ^ 2) = x /\
  sin (atan2 y x) * sqrt (x ^ 2 + y ^ 2) = y.
Proof.
  intros Hr; pose proof PI_RGT_0 as Hpi; unfold atan2.
  destruct (Rlt_dec 0 x) as [Hx|Hx].
  - set (u := y / x).
    assert (E : x ^ 2 + y ^ 2 = (x * x) * (1 + u²)) by (unfold u, Rsqr; field; lra).
    rewrite E, sqrt_scale, cos_atan, sin_atan by lra.
    pose proof (sqrt_1_plus_pos u).
    split; unfold u in *; field; repeat split; lra.
  - destruct (Rlt_dec x 0) as [Hx'|Hx'].
    + set (u := y / x).
      assert (E : x ^ 2 + y ^ 2 = (- x * - x) * (1 + u²)) by (unfold u, Rsqr; field; lra).
      rewrite E, sqrt_scale by lra.
      pose proof (sqrt_1_plus_pos u).
      destruct (Rle_dec 0 y).
      * rewrite cos_plus, sin_plus, cos_PI, sin_PI, cos_atan, sin_atan.
        split; unfold u in *; field; repeat split; lra.
      * rewrite cos_minus, sin_minus, cos_PI, sin_PI, cos_atan, sin_atan.
        split; unfold u in *; field; repeat split; lra.
    + assert (x = 0) by lra; subst x.
      destruct (Rlt_dec 0 y).
      * replace (0 ^ 2 + y ^ 2) with (y * y) by ring.
        rewrite sqrt_square, cos_PI2, sin_PI2 by lra; split; ring.
      * destruct (Rlt_dec y 0); [|nra].
        replace (0 ^ 2 + y ^ 2) with (- y * - y) by ring.
        rewrite sqrt_square, cos_neg, sin_neg, cos_PI2, sin_PI2 by lra; split; ring.
Qed.

(** ** The cosine law reaches the wrist position *)

Lemma cosine_law_reaches rb xw yw r2 :
  0 < L1 rb -> 0 < L2 rb -> r2 = xw ^ 2 + yw ^ 2 -> 0 < r2 ->
  (L1 rb - L2 rb) ^ 2 <= r2 <= (L1 rb + L2 rb) ^ 2 ->
  let '(q1, q2) := cosine_law rb xw yw r2 in
  L1 rb * cos q1 + L2 rb * cos (q1 + q2) = xw /\
  L1 rb * sin q1 + L2 rb * sin (q1 + q2) = yw.
Proof.
  intros HL1 HL2 Hr2 Hpos [Hlo Hhi].
  unfold cosine_law; cbv zeta.
  set (a := L1 rb) in *; set (b := L2 rb) in *.
  set (c0 := (r2 - a ^ 2 - b ^ 2) / (2 * a * b)).
  assert (Hc0 : c0 * (2 * a * b) = r2 - a ^ 2 - b ^ 2) by (unfold c0; field; lra).
  assert (Hab : 0 < 2 * a * b) by nra.
  assert (Hlo' : - (2 * a * b) <= c0 * (2 * a * b)) by nra.
  assert (Hhi' : c0 * (2 * a * b) <= 2 * a * b) by nra.
  assert (Hc0b : -1 <= c0 <= 1).
  { split; destruct (Rle_dec (-1) c0), (Rle_dec c0 1); auto; exfalso; nra. }
  rewrite (clip_id c0) by exact Hc0b.
  set (s2 := sqrt (1 - c0 ^ 2)).
  assert (Hs2 : s2 * s2 = 1 - c0 ^ 2) by (unfold s2; apply sqrt_sqrt; nra).
  assert (Hs2p : 0 <= s2) by apply sqrt_pos.
  (* the second joint angle has cosine c0 and sine s2 *)
  destruct (atan2_polar s2 c0) as [Hc2 Hs2'].
  { nra. }
  replace (c0 ^ 2 + s2 ^ 2) with 1 in Hc2, Hs2' by nra.
  rewrite sqrt_1, Rmult_1_r in Hc2, Hs2'.
  set (q2 := atan2 s2 c0) in *.
  set (k1 := a + b * c0); set (k2 := b * s2).
  assert (Hk : k1 ^ 2 + k2 ^ 2 = r2) by (unfold k1, k2; nra).
  set (r := sqrt r2).
  destruct (atan2_polar yw xw) as [HcA HsA]; [lra|].
  destruct (atan2_polar k2 k1) as [HcB HsB]; [lra|].
  rewrite <- Hr2 in HcA, HsA; rewrite Hk in HcB, HsB; fold r in HcA, HsA, HcB, HsB.
  set (A := atan2 yw xw) in *; set (B := atan2 k2 k1) in *.
  pose proof (sin2_cos2 B) as HB; unfold Rsqr in HB.
  rewrite cos_plus, sin_plus, Hc2, Hs2', cos_minus, sin_minus.
  split.
  - transitivity (k1 * (cos A * cos B + sin A * sin B) - k2 * (sin A * cos B - cos A * sin B));
      [unfold k1, k2; ring|].
    rewrite <- HcB, <- HsB, <- HcA.
    transitivity (r * cos A * (sin B * sin B + cos B * cos B)); [ring|].
    rewrite HB; ring.
  - transitivity (k1 * (sin A * cos B - cos A * sin B) + k2 * (cos A * cos B + sin A * sin B));
      [unfold k1, k2; ring|].
    rewrite <- HcB, <- HsB, <- HsA.
    transitivity (r * sin A * (sin B * sin B + cos B * cos B)); [ring|].
    rewrite HB; ring.
Qed.

(** ** The radial clamp *)

Lemma clamp_reach_spec rb xw yw :
  0 < max_r rb ->
  let r := sqrt (xw ^ 2 + yw ^ 2) in
  let '(xw', yw', r2') := clamp_reach rb xw yw in
  r2' = xw' ^ 2 + yw' ^ 2 /\
  (r <= max_r rb -> xw' = xw /\ yw' = yw /\ r2' = xw ^ 2 + yw ^ 2) /\
  (max_r rb < r -> xw' = xw * (max_r rb / r) /\ yw' = yw * (max_r rb / r) /\
                   r2' = max_r rb * max_r rb).
Proof.
  intros Hm r; unfold clamp_reach; cbv zeta; fold r.
  assert (Hrr : r * r = xw ^ 2 + yw ^ 2) by (unfold r; apply sqrt_sqrt; nra).
  destruct (Rlt_dec (max_r rb) r) as [Hlt|Hge].
  - repeat split; try lra.
    transitivity ((max_r rb * max_r rb) * ((xw ^ 2 + yw ^ 2) / (r * r)));
      [rewrite <- Hrr; field; lra | field; lra].
  - repeat split; lra.
Qed.

(** ** Forward kinematics of the inverse solution *)

Lemma fk_ik_chain rb x y z phi xw yw xw' yw' r2' :
  0 < L1 rb -> 0 < L2 rb ->
  wrist_xy rb x y = (phi, xw, yw) ->
  clamp_reach rb xw yw = (xw', yw', r2') ->
  r2' = xw' ^ 2 + yw' ^ 2 -> 0 < r2' ->
  (L1 rb - L2 rb) ^ 2 <= r2' <= (L1 rb + L2 rb) ^ 2 ->
  let c := forward_kinematics rb (inverse_kinematics rb (mkV x y z)) in
  vx (p3 c) = xw' /\ vy (p3 c) = yw' /\
  vx (ee c) = xw' + L3 rb * cos phi /\ vy (ee c) = yw' + L3 rb * sin phi /\
  vz (ee c) = z_base rb +
              clip (clip (z - z_base rb) (z_min rb) (z_max rb)) (z_min rb) (z_max rb).
Proof.
  intros HL1 HL2 Hw Hc Hr2 Hpos Hann c.
  pose proof (cosine_law_reaches rb xw' yw' r2' HL1 HL2 Hr2 Hpos Hann) as Hq.
  unfold c, inverse_kinematics; cbn [vx vy vz]; rewrite Hw, Hc.
  destruct (cosine_law rb xw' yw' r2') as [q1 q2]; destruct Hq as [Hx Hy].
  unfold forward_kinematics, ee; cbn.
  replace (q1 + q2 + (phi - q1 - q2)) with phi by ring.
  repeat split; lra.
Qed.

Lemma max_r_bounds rb : geometry_ok rb ->
  0 < L1 rb - L2 rb < max_r rb /\ max_r rb < L1 rb + L2 rb.
Proof.
  intros (HL & He & _); unfold max_r, eps in *.
  assert (0 < / 1000000) by (apply Rinv_0_lt_compat; lra). lra.
Qed.

(** C3: for a target whose wrist position lies in the annulus of the two-link
    arm and whose height is within the lift range, the end effector reached by
    [forward_kinematics (inverse_kinematics target)] is the target, up to the
    clamp margin [eps] in the plane (exactly, when no radial clamp applies). *)
Theorem forward_inverse_roundtrip rb x y z :
  geometry_ok rb ->
  (L1 rb - L2 rb) ^ 2 <= wrist_r2 rb x y <= (L1 rb + L2 rb) ^ 2 ->
  z_min rb <= z - z_base rb <= z_max rb ->
  let e := ee (forward_kinematics rb (inverse_kinematics rb (mkV x y z))) in
  (vx e - x) ^ 2 + (vy e - y) ^ 2 <= eps ^ 2 /\ vz e = z /\
  (sqrt (wrist_r2 rb x y) <= max_r rb -> vx e = x /\ vy e = y).
Proof.
  intros Hg Hann Hz e.
  pose proof (max_r_bounds rb Hg) as [[Hd Hm] HM].
  assert (Hgeo := Hg); destruct Hgeo as (HL & He & Hzz).
  unfold wrist_r2 in *.
  destruct (wrist_xy rb x y) as [[phi xw] yw] eqn:Hw.
  pose proof (clamp_reach_spec rb xw yw ltac:(lra)) as Hc; cbv zeta in Hc.
  destruct (clamp_reach rb xw yw) as [[xw' yw'] r2'] eqn:Hcl.
  destruct Hc as [Hr2 [Hin Hout]].
  set (r := sqrt (xw ^ 2 + yw ^ 2)) in *.
  assert (Hrr : r * r = xw ^ 2 + yw ^ 2) by (unfold r; apply sqrt_sqrt; nra).
  assert (Hr0 : 0 <= r) by apply sqrt_pos.
  pose proof Hw as Hw0.
  unfold wrist_xy in Hw; injection Hw as Hphi Hxw0 Hyw0.
  assert (Hxw : xw = x - L3 rb * cos phi) by (rewrite <- Hphi; lra).
  assert (Hyw : yw = y - L3 rb * sin phi) by (rewrite <- Hphi; lra).
  assert (Hzc : z_base rb + clip (clip (z - z_base rb) (z_min rb) (z_max rb))
                  (z_min rb) (z_max rb) = z) by (rewrite (clip_id (z - z_base rb)), clip_id by lra; ring).
  destruct (Rle_dec r (max_r rb)) as [Hle|Hlt].
  - destruct (Hin Hle) as (-> & -> & Hr2').
    destruct (fk_ik_chain rb x y z phi xw yw xw yw r2' ltac:(lra) ltac:(lra) Hw0 Hcl
                ltac:(lra) ltac:(nra) ltac:(lra)) as (_ & _ & Ex & Ey & Ez).
    fold e in Ex, Ey, Ez.
    assert (vx e = x) by (rewrite Ex, Hxw; ring).
    assert (vy e = y) by (rewrite Ey, Hyw; ring).
    repeat split; try lra.
    replace (vx e - x) with 0 by lra; replace (vy e - y) with 0 by lra.
    unfold eps; nra.
  - apply Rnot_le_lt in Hlt.
    destruct (Hout Hlt) as (Ex' & Ey' & Hr2').
    destruct (fk_ik_chain rb x y z phi xw yw xw' yw' r2' ltac:(lra) ltac:(lra) Hw0 Hcl
                Hr2 ltac:(nra) ltac:(split; nra)) as (_ & _ & Ex & Ey & Ez).
    fold e in Ex, Ey, Ez.
    assert (HrM : r <= L1 rb + L2 rb) by nra.
    assert (Hsq : (vx e - x) ^ 2 + (vy e - y) ^ 2 = (max_r rb - r) ^ 2).
    { rewrite Ex, Ey, Ex', Ey', Hxw, Hyw.
      transitivity ((xw ^ 2 + yw ^ 2) * (max_r rb / r - 1) ^ 2);
        [rewrite Hxw, Hyw; ring|].
      rewrite <- Hrr; field; lra. }
    repeat split; try lra.
    rewrite Hsq; unfold max_r in *; nra.
Qed.

(** A target on the positive x axis has heading [0]. *)
Lemma wrist_xy_x_axis rb x : 0 < x -> wrist_xy rb x 0 = (0, x - L3 rb, 0).
Proof.
  intros Hx; unfold wrist_xy, atan2.
  destruct (Rlt_dec 0 x); [|lra].
  unfold Rdiv; rewrite Rmult_0_l, atan_0, cos_0, sin_0.
  f_equal; [f_equal|]; ring.
Qed.

Lemma geometry_ok_default : geometry_ok default_robot.
Proof. unfold geometry_ok, default_robot, eps; cbn; lra. Qed.

Lemma forward_inverse_roundtrip_witness :
  let e := ee (forward_kinematics default_robot
                 (inverse_kinematics default_robot (mkV 0.5 0 0.25))) in
  (vx e - 0.5) ^ 2 + (vy e - 0) ^ 2 <= eps ^ 2 /\ vz e = 0.25 /\
  (sqrt (wrist_r2 default_robot 0.5 0) <= max_r default_robot ->
   vx e = 0.5 /\ vy e = 0).
Proof.
  apply (forward_inverse_roundtrip default_robot 0.5 0 0.25).
  - exact geometry_ok_default.
  - unfold wrist_r2; rewrite wrist_xy_x_axis by lra; cbn; lra.
  - cbn; lra.
Defined.

Lemma fk_ee_z rb q :
  vz (ee (forward_kinematics rb q)) = z_base rb + clip (j4 q) (z_min rb) (z_max rb).
Proof. reflexivity. Qed.

(** C10: whatever its prismatic component, forward kinematics clamps the lift:
    the end-effector height is [z_base + clip q4 z_min z_max], hence within
    [[z_base + z_min, z_base + z_max]]. *)
Theorem forward_kinematics_lift_clamped rb q :
  z_min rb <= z_max rb ->
  vz (ee (forward_kinematics rb q)) = z_base rb + clip (j4 q) (z_min rb) (z_max rb) /\
  z_base rb + z_min rb <= vz (ee (forward_kinematics rb q)) <= z_base rb + z_max rb.
Proof.
  intros H; rewrite fk_ee_z; split; [reflexivity|].
  pose proof (clip_bounds (j4 q) (z_min rb) (z_max rb) H); lra.
Qed.

Lemma forward_kinematics_lift_clamped_witness :
  vz (ee (forward_kinematics default_robot q_home)) =
    z_base default_robot + clip (j4 q_home) (z_min default_robot) (z_max default_robot) /\
  z_base default_robot + z_min default_robot <= vz (ee (forward_kinematics default_robot q_home))
    <= z_base default_robot + z_max default_robot.
Proof. apply forward_kinematics_lift_clamped; cbn; lra. Defined.

(** C7: when the wrist position lies beyond [L1 + L2], the radial clamp puts
    it at radius exactly [L1 + L2 - eps], and forward kinematics of the
    returned joint vector puts the wrist point [p3] of the chain there, at
    that radius. *)
Theorem inverse_kinematics_projection rb x y z :
  geometry_ok rb ->
  L1 rb + L2 rb < sqrt (wrist_r2 rb x y) ->
  let '(phi, xw, yw) := wrist_xy rb x y in
  let '(xw', yw', r2') := clamp_reach rb xw yw in
  let c := forward_kinematics rb (inverse_kinematics rb (mkV x y z)) in
  sqrt (xw' ^ 2 + yw' ^ 2) = L1 rb + L2 rb - eps /\
  vx (p3 c) = xw' /\ vy (p3 c) = yw' /\
  sqrt (vx (p3 c) ^ 2 + vy (p3 c) ^ 2) = L1 rb + L2 rb - eps.
Proof.
  intros Hg Hfar.
  pose proof (max_r_bounds rb Hg) as [[Hd Hm] HM].
  assert (Hgeo := Hg); destruct Hgeo as (HL & He & Hzz).
  unfold wrist_r2 in *.
  destruct (wrist_xy rb x y) as [[phi xw] yw] eqn:Hw.
  pose proof (clamp_reach_spec rb xw yw ltac:(lra)) as Hc; cbv zeta in Hc.
  destruct (clamp_reach rb xw yw) as [[xw' yw'] r2'] eqn:Hcl.
  destruct Hc as [Hr2 [_ Hout]].
  destruct (Hout ltac:(lra)) as (_ & _ & Hr2').
  assert (Hrad : sqrt (xw' ^ 2 + yw' ^ 2) = max_r rb)
    by (rewrite <- Hr2, Hr2'; apply sqrt_square; lra).
  destruct (fk_ik_chain rb x y z phi xw yw xw' yw' r2' ltac:(lra) ltac:(lra) Hw Hcl
              Hr2 ltac:(nra) ltac:(split; nra)) as (Ex & Ey & _).
  cbv zeta; rewrite Ex, Ey; unfold max_r in Hrad; repeat split; assumption.
Qed.

Lemma inverse_kinematics_projection_witness :
  L1 default_robot + L2 default_robot < sqrt (wrist_r2 default_robot 2 0) /\
  let '(phi, xw, yw) := wrist_xy default_robot 2 0 in
  let '(xw', yw', r2') := clamp_reach default_robot xw yw in
  let c := forward_kinematics default_robot (inverse_kinematics default_robot (mkV 2 0 0.25)) in
  sqrt (xw' ^ 2 + yw' ^ 2) = L1 default_robot + L2 default_robot - eps /\
  vx (p3 c) = xw' /\ vy (p3 c) = yw' /\
  sqrt (vx (p3 c) ^ 2 + vy (p3 c) ^ 2) = L1 default_robot + L2 default_robot - eps.
Proof.
  assert (Hfar : L1 default_robot + L2 default_robot < sqrt (wrist_r2 default_robot 2 0)).
  { unfold wrist_r2; rewrite wrist_xy_x_axis by lra.
    match goal with |- _ < sqrt ?t =>
      replace t with (1.82 * 1.82) by (unfold default_robot; simpl; lra) end.
    rewrite sqrt_square by lra; unfold default_robot; simpl; lra. }
  split; [exact Hfar|].
  apply (inverse_kinematics_projection default_robot 2 0 0.25 geometry_ok_default Hfar).
Defined.

(** C2 (as the code does it): the elbow angle [q2 = arctan2(s2, c2)] with
    [s2 = sqrt(1 - c2^2) >= 0] always lies in [[0, PI]]; [q1] and [q3] are
    returned as computed, without any wrapping. *)
Theorem inverse_kinematics_q2_range rb t :
  0 <= j2 (inverse_kinematics rb t) <= PI.
Proof.
  unfold inverse_kinematics.
  destruct (wrist_xy rb (vx t) (vy t)) as [[phi xw] yw].
  destruct (clamp_reach rb xw yw) as [[xw' yw'] r2'].
  unfold cosine_law; cbv zeta; cbn [j2].
  apply atan2_nonneg_range, sqrt_pos.
Qed.

Ltac atan_bounds :=
  repeat match goal with
  | |- context [atan ?u] =>
      lazymatch goal with
      | _ : - PI / 2 < atan u < PI / 2 |- _ => fail
      | _ => pose proof (atan_bound u)
      end
  end.

(** C2 fails: for the target [(0, 0, 0)] the returned [q3] is below [- PI]. *)
Lemma inverse_kinematics_q3_unwrapped :
  j3 (inverse_kinematics default_robot (mkV 0 0 0)) < - PI.
Proof.
  unfold inverse_kinematics; cbn [vx vy vz].
  assert (Hw : wrist_xy default_robot 0 0 = (0, -0.18, 0)).
  { unfold wrist_xy, atan2.
    destruct (Rlt_dec 0 0); [lra|]; destruct (Rlt_dec 0 0); [lra|].
    rewrite cos_0, sin_0; unfold default_robot; cbn [L3]; f_equal; [f_equal|]; lra. }
  rewrite Hw.
  assert (Hc : clamp_reach default_robot (-0.18) 0 = (-0.18, 0, (-0.18) ^ 2 + 0 ^ 2)).
  { unfold clamp_reach; cbv zeta.
    replace ((-0.18) ^ 2 + 0 ^ 2) with (0.18 * 0.18) by lra.
    rewrite sqrt_square by lra.
    destruct (Rlt_dec (max_r default_robot) 0.18) as [H|H]; [|f_equal; lra].
    exfalso; unfold max_r, default_robot, eps in H; cbn [L1 L2] in H; lra. }
  rewrite Hc; unfold cosine_law, default_robot; cbv zeta; cbn [L1 L2 j3].
  match goal with |- context [clip ?c (-1) 1] => set (c0 := c) end.
  assert (Hc0 : -1 <= c0 < -0.8) by (unfold c0; lra).
  rewrite clip_id by lra.
  set (s2 := sqrt (1 - c0 ^ 2)).
  assert (Hs2 : 0 <= s2) by apply sqrt_pos.
  unfold atan2.
  replace (0 / -0.18) with 0 by (unfold Rdiv; ring).
  repeat match goal with
         | |- context [Rlt_dec ?a ?b] => destruct (Rlt_dec a b)
         | |- context [Rle_dec ?a ?b] => destruct (Rle_dec a b)
         end; try lra.
  all: rewrite ?atan_0; atan_bounds; lra.
Qed.

(** ** The monad and the Python list primitives *)

Lemma bind_inr {A B} (m : M A) (k : A -> M B) s a t1 s1 :
  m s = inr (a, t1, s1) ->
  bind m k s = match k a s1 with
               | inl e => inl e
               | inr (b, t2, s2) => inr (b, t1 ++ t2, s2)
               end.
Proof. intros H; unfold bind; rewrite H; reflexivity. Qed.

Lemma list_set_length {A} (l : list A) k v l' :
  list_set l k v = Some l' -> length l' = length l.
Proof.
  revert k l'; induction l as [|h t IH]; intros [|k] l' H; cbn in H; try discriminate.
  - injection H as <-; reflexivity.
  - destruct (list_set t k v) eqn:E; cbn in H; [|discriminate].
    injection H as <-; cbn; f_equal; eapply IH; eauto.
Qed.

Lemma list_set_nth {A} (l : list A) k v l' :
  list_set l k v = Some l' -> nth_error l' k = Some v.
Proof.
  revert k l'; induction l as [|h t IH]; intros [|k] l' H; cbn in H; try discriminate.
  - injection H as <-; reflexivity.
  - destruct (list_set t k v) eqn:E; cbn in H; [|discriminate].
    injection H as <-; cbn; eapply IH; eauto.
Qed.

Lemma list_set_some {A} (l : list A) k v :
  (k < length l)%nat -> exists l', list_set l k v = Some l'.
Proof.
  revert k; induction l as [|h t IH]; intros [|k] Hk; cbn in *; try lia.
  - eexists; reflexivity.
  - destruct (IH k ltac:(lia)) as [l' ->]; eexists; reflexivity.
Qed.

Lemma lerp_1 qs qt : lerp 1 qs qt = qt.
Proof. destruct qt; unfold lerp; cbn; f_equal; ring. Qed.

Lemma range_length n : length (range n) = Z.to_nat n.
Proof. unfold range; rewrite length_map, length_seq; reflexivity. Qed.

Lemma range_succ n : (0 <= n)%Z -> range (n + 1) = range n ++ [n].
Proof.
  intros Hn; unfold range.
  replace (Z.to_nat (n + 1)) with (S (Z.to_nat n)) by lia.
  rewrite seq_S, map_app; cbn; rewrite Z2Nat.id by lia; reflexivity.
Qed.

Lemma range_nonpos n : (n <= 0)%Z -> range n = [].
Proof. intros Hn; unfold range; replace (Z.to_nat n) with 0%nat by lia; reflexivity. Qed.

(** ** One iteration and one segment of [_animate_segment] *)

Lemma animate_step_spec qs qt steps c i s :
  steps <> 0%Z -> carry_ok c (objects_pos s) ->
  exists f s', animate_step qs qt steps c i s = inr (tt, [f], s') /\
    fr_q f = lerp (IZR i / IZR steps) qs qt /\ frame_ok c f /\
    q_current s' = q_current s /\ object_done s' = object_done s /\
    length (objects_pos s') = length (objects_pos s) /\
    (c = None -> objects_pos s' = objects_pos s).
Proof.
  intros Hs Hc; unfold animate_step.
  rewrite (bind_inr _ _ s (IZR i / IZR steps) [] s)
    by (unfold py_div; rewrite (proj2 (Z.eqb_neq _ _) Hs); reflexivity).
  set (q := lerp (IZR i / IZR steps) qs qt).
  destruct c as [k|].
  - destruct (list_set_some (objects_pos s) k (ee (forward_kinematics robot q)) Hc)
      as [l' Hl'].
    eexists; exists (set_objs s l'); unfold bind, get, py_set, put, emit, ret.
    rewrite Hl'; cbn.
    split; [reflexivity|].
    repeat split; try reflexivity.
    + intros k' Hk; injection Hk as <-; cbn; eapply list_set_nth; eauto.
    + eapply list_set_length; eauto.
    + discriminate.
  - eexists; exists s; unfold bind, get, emit, ret; cbn.
    split; [reflexivity|]; repeat split; try reflexivity; discriminate.
Qed.

Lemma for_each_animate_spec qs qt steps c l s :
  steps <> 0%Z -> carry_ok c (objects_pos s) ->
  exists tr s', for_each l (animate_step qs qt steps c) s = inr (tt, tr, s') /\
    map fr_q tr = map (fun i => lerp (IZR i / IZR steps) qs qt) l /\
    Forall (frame_ok c) tr /\
    q_current s' = q_current s /\ object_done s' = object_done s /\
    length (objects_pos s') = length (objects_pos s) /\
    (c = None -> objects_pos s' = objects_pos s).
Proof.
  intros Hs; revert s; induction l as [|i l IH]; intros s Hc.
  - exists [], s; repeat split; auto.
  - destruct (animate_step_spec qs qt steps c i s Hs Hc)
      as (f & s1 & E1 & Hq1 & Hf1 & Hcur1 & Hdone1 & Hlen1 & Hobj1).
    assert (Hc1 : carry_ok c (objects_pos s1)) by (destruct c; cbn in *; lia).
    destruct (IH s1 Hc1) as (tr & s2 & E2 & Hq2 & Hf2 & Hcur2 & Hdone2 & Hlen2 & Hobj2).
    exists (f :: tr), s2; cbn [for_each].
    rewrite (bind_inr _ _ s tt [f] s1 E1), E2.
    repeat split.
    + cbn; f_equal; assumption.
    + constructor; assumption.
    + congruence.
    + congruence.
    + congruence.
    + intros Hn; rewrite Hobj2, Hobj1 by exact Hn; reflexivity.
Qed.

Lemma animate_segment_spec qt steps c s :
  steps <> 0%Z -> carry_ok c (objects_pos s) ->
  exists tr s', animate_segment qt steps c s = inr (tt, tr, s') /\
    map fr_q tr = map (fun i => lerp (IZR i / IZR steps) (q_current s) qt)
                      (range (steps + 1)) /\
    Forall (frame_ok c) tr /\
    q_current s' = qt /\ object_done s' = object_done s /\
    length (objects_pos s') = length (objects_pos s) /\
    (c = None -> objects_pos s' = objects_pos s).
Proof.
  intros Hs Hc.
  destruct (for_each_animate_spec (q_current s) qt steps c (range (steps + 1)) s Hs Hc)
    as (tr & s1 & E1 & Hq & Hf & Hcur & Hdone & Hlen & Hobj).
  exists (tr ++ []), (set_q s1 qt); unfold animate_segment.
  rewrite (bind_inr _ _ s s [] s) by reflexivity; cbv beta.
  rewrite (bind_inr _ _ s tt tr s1 E1).
  unfold bind, get, put; cbn.
  rewrite app_nil_r.
  repeat split; auto.
Qed.

(** ** Claims on [_animate_segment] *)

(** C4: for [steps >= 1] the last joint vector of the segment is the goal
    itself, and the goal is committed as [q_current]. *)
Theorem animate_segment_endpoint s qt steps c :
  (1 <= steps)%Z -> carry_ok c (objects_pos s) ->
  exists tr s', animate_segment qt steps c s = inr (tt, tr, s') /\
    (exists tr0 f, tr = tr0 ++ [f] /\ fr_q f = qt) /\ q_current s' = qt.
Proof.
  intros Hn Hc.
  destruct (animate_segment_spec qt steps c s ltac:(lia) Hc)
    as (tr & s' & E & Hq & _ & Hcur & _).
  exists tr, s'; split; [exact E|]; split; [|exact Hcur].
  rewrite range_succ, map_app in Hq by lia; cbn in Hq.
  apply map_eq_app in Hq as (tr0 & tr1 & -> & _ & Hlast).
  apply map_eq_cons in Hlast as (f & tl & -> & Hf & Htl).
  destruct tl; [|discriminate].
  exists tr0, f; split; [reflexivity|].
  rewrite Hf, Rdiv_diag by (apply not_0_IZR; lia).
  apply lerp_1.
Qed.

Lemma animate_segment_endpoint_witness :
  exists tr s', animate_segment (mkJ 1 2 3 0.1) 60 (Some 2%nat) init_sim = inr (tt, tr, s') /\
    (exists tr0 f, tr = tr0 ++ [f] /\ fr_q f = mkJ 1 2 3 0.1) /\ q_current s' = mkJ 1 2 3 0.1.
Proof.
  apply (animate_segment_endpoint init_sim (mkJ 1 2 3 0.1) 60 (Some 2%nat)).
  - lia.
  - cbn; lia.
Defined.

(** C5 (as the code does it): a step count of [0] raises
    [ZeroDivisionError] at [i / steps] before anything is emitted or
    committed; a negative step count emits nothing, raises nothing, and
    commits the goal as [q_current]. *)
Theorem animate_segment_nonpositive s qt steps c :
  (steps <= 0)%Z ->
  animate_segment qt steps c s =
    if Z.eqb steps 0 then inl ZeroDivisionError else inr (tt, [], set_q s qt).
Proof.
  intros Hn; destruct (Z.eqb_spec steps 0) as [->|Hne].
  - reflexivity.
  - unfold animate_segment; rewrite range_nonpos by lia; reflexivity.
Qed.

Lemma animate_segment_nonpositive_witness :
  animate_segment q_home (-1) None init_sim = inr (tt, [], set_q init_sim q_home) /\
  animate_segment q_home 0 None init_sim = inl ZeroDivisionError.
Proof.
  split.
  - apply (animate_segment_nonpositive init_sim q_home (-1) None); lia.
  - apply (animate_segment_nonpositive init_sim q_home 0 None); lia.
Defined.

(** C5 fails: with [steps = -1] no error is signalled, the sequence is
    empty and the goal is silently committed. *)
Lemma animate_segment_negative_steps_silent :
  animate_segment (mkJ 1 0 0 0) (-1) None init_sim =
    inr (tt, [], mkSim (mkJ 1 0 0 0) floor_positions [false; false; false]).
Proof. reflexivity. Qed.

(** C6 (as the code does it): the interpolated joint vectors are the plain
    linear interpolation, not clamped; the clamp is applied inside
    [forward_kinematics], so the end effector of every emitted step is at a
    height within [[z_base + z_min, z_base + z_max]]. *)
Theorem animate_segment_lift_clamped_in_fk s qt steps c :
  steps <> 0%Z -> carry_ok c (objects_pos s) ->
  exists tr s', animate_segment qt steps c s = inr (tt, tr, s') /\
    Forall (fun f =>
      (exists i, In i (range (steps + 1)) /\
         j4 (fr_q f) = (1 - IZR i / IZR steps) * j4 (q_current s)
                       + IZR i / IZR steps * j4 qt) /\
      fr_joints f = forward_kinematics robot (fr_q f) /\
      z_base robot + z_min robot <= vz (ee (fr_joints f)) <= z_base robot + z_max robot) tr.
Proof.
  intros Hs Hc.
  destruct (animate_segment_spec qt steps c s Hs Hc) as (tr & s' & E & Hq & Hf & _).
  exists tr, s'; split; [exact E|].
  apply Forall_forall; intros f Hin.
  pose proof (proj1 (Forall_forall _ _) Hf f Hin) as (Hj & _ & _).
  split; [|split; [exact Hj|]].
  - assert (Hm : In (fr_q f) (map fr_q tr)) by (apply in_map; exact Hin).
    rewrite Hq in Hm; apply in_map_iff in Hm as (i & Hi & Hini).
    exists i; split; [exact Hini|]; rewrite <- Hi; reflexivity.
  - rewrite Hj, fk_ee_z.
    pose proof (clip_bounds (j4 (fr_q f)) (z_min robot) (z_max robot)
                  ltac:(unfold robot, default_robot; cbn; lra)); lra.
Qed.

Lemma animate_segment_lift_clamped_in_fk_witness :
  exists tr s', go_home init_sim = inr (tt, tr, s') /\
    Forall (fun f =>
      (exists i, In i (range (60 + 1)) /\
         j4 (fr_q f) = (1 - IZR i / IZR 60) * j4 (q_current init_sim)
                       + IZR i / IZR 60 * j4 q_home) /\
      fr_joints f = forward_kinematics robot (fr_q f) /\
      z_base robot + z_min robot <= vz (ee (fr_joints f)) <= z_base robot + z_max robot) tr.
Proof.
  apply (animate_segment_lift_clamped_in_fk init_sim q_home 60 None); [lia|exact I].
Defined.

(** C6 fails: the first joint vector emitted by [go_home] from the initial
    state is [q_home], whose prismatic component [0.35] exceeds [z_max]. *)
Lemma go_home_emits_unclamped_lift :
  exists tr s', go_home init_sim = inr (tt, tr, s') /\
    exists f, In f tr /\ j4 (fr_q f) = 0.35 /\ z_max robot < j4 (fr_q f).
Proof.
  destruct (animate_segment_spec q_home 60 None init_sim ltac:(lia) I)
    as (tr & s' & E & Hq & _).
  exists tr, s'; split; [exact E|].
  unfold range in Hq; cbn [Z.to_nat Z.add Pos.to_nat seq map] in Hq.
  destruct tr as [|f tr]; [discriminate|].
  injection Hq as Hf _.
  exists f; split; [left; reflexivity|].
  rewrite Hf; unfold lerp, q_home, robot, default_robot; cbn.
  split; lra.
Qed.

(** ** Claims on [pick_and_place] *)

Tactic Notation "segment" ident(tr) ident(st) ident(E) ident(Hq) ident(F)
    ident(Hcur) ident(Hdone) ident(Hlen) ident(Hobj) :=
  match goal with
  | |- context [bind (animate_segment ?q ?n ?c) ?k ?s0] =>
      destruct (animate_segment_spec q n c s0 ltac:(lia)
                  ltac:(first [exact I | cbn; lia]))
        as (tr & st & E & Hq & F & Hcur & Hdone & Hlen & Hobj);
      rewrite (bind_inr (animate_segment q n c) k s0 tt tr st E); cbv beta
  end.

Lemma segment_length qs qt steps tr :
  (0 <= steps)%Z ->
  map fr_q tr = map (fun i => lerp (IZR i / IZR steps) qs qt) (range (steps + 1)) ->
  length tr = Z.to_nat (steps + 1).
Proof.
  intros _ Hq; apply (f_equal (@length _)) in Hq.
  rewrite !length_map, range_length in Hq; exact Hq.
Qed.

(** A full cycle for an object that is not yet placed: it runs without
    error, its trace is the two approach segments, the three carrying
    segments (143 frames) and the retreat segment, the object ends at
    [shelf_positions[k]] and is marked done. *)
Lemma pick_and_place_run s k :
  (k < 3)%nat -> length (objects_pos s) = 3%nat ->
  nth_error (object_done s) k = Some false ->
  exists tr_before tr_carry tr_after s',
    pick_and_place k s = inr (tt, tr_before ++ tr_carry ++ tr_after, s') /\
    length tr_carry = 143%nat /\
    Forall (frame_ok (Some k)) tr_carry /\ Forall (frame_ok None) (tr_before ++ tr_after) /\
    nth_error (objects_pos s') k = nth_error shelf_positions k /\
    nth_error (object_done s') k = Some true.
Proof.
  intros Hk Hlen0 Hd.
  assert (Hfl : exists p, nth_error floor_positions k = Some p).
  { destruct (nth_error floor_positions k) eqn:E; [eauto|].
    apply nth_error_None in E; cbn in E; lia. }
  assert (Hsh : exists p, nth_error shelf_positions k = Some p).
  { destruct (nth_error shelf_positions k) eqn:E; [eauto|].
    apply nth_error_None in E; cbn in E; lia. }
  destruct Hfl as [pick Hpick]; destruct Hsh as [place Hplace].
  unfold pick_and_place.
  rewrite (bind_inr _ _ s s [] s) by reflexivity; cbv beta.
  rewrite (bind_inr _ _ s false [] s) by (unfold py_get; rewrite Hd; reflexivity).
  cbv beta iota.
  rewrite (bind_inr _ _ s pick [] s) by (unfold py_get; rewrite Hpick; reflexivity).
  cbv beta.
  rewrite (bind_inr _ _ s place [] s) by (unfold py_get; rewrite Hplace; reflexivity).
  cbv beta zeta.
  segment tr1 s1 E1 Hq1 F1 Hcur1 Hdone1 Hlen1 Hobj1.
  segment tr2 s2 E2 Hq2 F2 Hcur2 Hdone2 Hlen2 Hobj2.
  segment tr3 s3 E3 Hq3 F3 Hcur3 Hdone3 Hlen3 Hobj3.
  segment tr4 s4 E4 Hq4 F4 Hcur4 Hdone4 Hlen4 Hobj4.
  segment tr5 s5 E5 Hq5 F5 Hcur5 Hdone5 Hlen5 Hobj5.
  destruct (list_set_some (objects_pos s5) k place ltac:(lia)) as [objs Hobjs].
  assert (Hk5 : (k < length (object_done s5))%nat).
  { rewrite Hdone5, Hdone4, Hdone3, Hdone2, Hdone1.
    apply nth_error_Some; rewrite Hd; discriminate. }
  destruct (list_set_some (object_done s5) k true Hk5) as [dn Hdn].
  rewrite (bind_inr _ _ s5 s5 [] s5) by reflexivity; cbv beta.
  rewrite (bind_inr _ _ s5 objs [] s5) by (unfold py_set; rewrite Hobjs; reflexivity).
  cbv beta.
  rewrite (bind_inr _ _ s5 tt [] (set_objs s5 objs)) by reflexivity; cbv beta.
  rewrite (bind_inr _ _ (set_objs s5 objs) (set_objs s5 objs) [] (set_objs s5 objs))
    by reflexivity; cbv beta.
  rewrite (bind_inr _ _ (set_objs s5 objs) dn [] (set_objs s5 objs))
    by (unfold py_set; cbn [object_done set_objs]; rewrite Hdn; reflexivity).
  cbv beta.
  rewrite (bind_inr _ _ (set_objs s5 objs) tt [] (set_done (set_objs s5 objs) dn))
    by reflexivity; cbv beta.
  set (s6 := set_done (set_objs s5 objs) dn).
  match goal with
  | |- context [animate_segment ?q ?n ?c s6] =>
      destruct (animate_segment_spec q n c s6 ltac:(lia) I)
        as (tr7 & s7 & E7 & Hq7 & F7 & Hcur7 & Hdone7 & Hlen7 & Hobj7);
      rewrite E7
  end.
  exists (tr1 ++ tr2), (tr3 ++ tr4 ++ tr5), tr7, s7.
  split; [cbn; rewrite <- !app_assoc; reflexivity|].
  split.
  { rewrite !length_app, (segment_length _ _ 40 _ ltac:(lia) Hq3),
      (segment_length _ _ 60 _ ltac:(lia) Hq4), (segment_length _ _ 40 _ ltac:(lia) Hq5).
    reflexivity. }
  split; [rewrite !Forall_app; tauto|].
  split; [rewrite !Forall_app; tauto|].
  rewrite Hobj7, Hdone7 by reflexivity; unfold s6; cbn [objects_pos object_done set_done set_objs].
  split; [rewrite Hplace; eapply list_set_nth; eauto|eapply list_set_nth; eauto].
Qed.

Lemma inverse_kinematics_j4 rb t :
  j4 (inverse_kinematics rb t) = clip (vz t - z_base rb) (z_min rb) (z_max rb).
Proof.
  unfold inverse_kinematics.
  destruct (wrist_xy rb (vx t) (vy t)) as [[phi xw] yw].
  destruct (clamp_reach rb xw yw) as [[xw' yw'] r2'].
  destruct (cosine_law rb xw' yw' r2'); reflexivity.
Qed.

(** C1 (as the code does it): at the detach step the object is put at the
    requested shelf pose [shelf_positions[k]] itself; after the cycle the
    object is there and marked done. *)
Theorem pick_and_place_detach_at_shelf_pose s k :
  (k < 3)%nat -> length (objects_pos s) = 3%nat ->
  nth_error (object_done s) k = Some false ->
  exists tr s', pick_and_place k s = inr (tt, tr, s') /\
    nth_error (objects_pos s') k = nth_error shelf_positions k /\
    nth_error (object_done s') k = Some true.
Proof.
  intros Hk Hl Hd.
  destruct (pick_and_place_run s k Hk Hl Hd) as (tb & tc & ta & s' & E & _ & _ & _ & Ho & Hdn).
  exists (tb ++ tc ++ ta), s'; auto.
Qed.

Lemma pick_and_place_detach_at_shelf_pose_witness :
  exists tr s', pick_and_place 2 init_sim = inr (tt, tr, s') /\
    nth_error (objects_pos s') 2 = nth_error shelf_positions 2 /\
    nth_error (object_done s') 2 = Some true.
Proof.
  apply (pick_and_place_detach_at_shelf_pose init_sim 2); [lia|reflexivity|reflexivity].
Defined.

(** C1 fails: after the cycle for object 2 from the initial state, the
    object is at [(0.40, 0.52, 0.65)], while forward kinematics of the place
    joint vector reaches height [0.40] (the lift saturates at [z_max]). *)
Lemma pick_and_place_detach_not_fk_pose :
  ~ (forall tr s', pick_and_place 2 init_sim = inr (tt, tr, s') ->
       nth_error (objects_pos s') 2 =
       Some (ee (forward_kinematics robot
                   (inverse_kinematics robot (mkV 0.40 0.52 0.65))))).
Proof.
  intros Hclaim.
  destruct (pick_and_place_run init_sim 2 ltac:(lia) eq_refl eq_refl)
    as (tb & tc & ta & s' & E & _ & _ & _ & Ho & _).
  specialize (Hclaim _ _ E); rewrite Ho in Hclaim.
  pose proof (f_equal (option_map vz) Hclaim) as Hz.
  cbn [option_map nth_error shelf_positions shelf_levels map vz] in Hz.
  injection Hz as Hz.
  rewrite inverse_kinematics_j4 in Hz.
  unfold robot, default_robot in Hz; cbn [z_base z_min z_max vz] in Hz.
  rewrite (clip_above (0.65 - 0.25)), clip_id in Hz by lra.
  lra.
Qed.

(** C8: a request for an object whose [object_done] flag is set returns at
    once: no frame, state unchanged. *)
Theorem pick_and_place_done_noop s k :
  nth_error (object_done s) k = Some true ->
  pick_and_place k s = inr (tt, [], s).
Proof.
  intros Hd; unfold pick_and_place, bind, get, py_get; rewrite Hd; reflexivity.
Qed.

Lemma pick_and_place_done_noop_witness :
  pick_and_place 2 (mkSim q_home floor_positions [false; false; true]) =
    inr (tt, [], mkSim q_home floor_positions [false; false; true]).
Proof. apply pick_and_place_done_noop; reflexivity. Defined.

(** C9: the cycle splits into the approach segments, the three carrying
    segments (lift, transit, descend: 41 + 61 + 41 frames) and the retreat;
    in every frame of the carrying segments the carried object's position is
    exactly the end effector of [forward_kinematics] at that frame's joint
    vector. *)
Theorem pick_and_place_carry_fidelity s k :
  (k < 3)%nat -> length (objects_pos s) = 3%nat ->
  nth_error (object_done s) k = Some false ->
  exists tr_before tr_carry tr_after s',
    pick_and_place k s = inr (tt, tr_before ++ tr_carry ++ tr_after, s') /\
    length tr_carry = 143%nat /\
    Forall (fun f => fr_carry f = Some k /\
              nth_error (fr_objs f) k = Some (ee (forward_kinematics robot (fr_q f))))
           tr_carry /\
    Forall (fun f => fr_carry f = None) (tr_before ++ tr_after).
Proof.
  intros Hk Hl Hd.
  destruct (pick_and_place_run s k Hk Hl Hd)
    as (tb & tc & ta & s' & E & Hlen & Fc & Fn & _ & _).
  exists tb, tc, ta, s'; split; [exact E|]; split; [exact Hlen|]; split.
  - eapply Forall_impl; [|exact Fc].
    intros f (Hj & Hc & Ho); split; [exact Hc|].
    rewrite <- Hj; apply Ho; reflexivity.
  - eapply Forall_impl; [|exact Fn]; intros f (_ & Hc & _); exact Hc.
Qed.

Lemma pick_and_place_carry_fidelity_witness :
  exists tr_before tr_carry tr_after s',
    pick_and_place 0 init_sim = inr (tt, tr_before ++ tr_carry ++ tr_after, s') /\
    length tr_carry = 143%nat /\
    Forall (fun f => fr_carry f = Some 0%nat /\
              nth_error (fr_objs f) 0 = Some (ee (forward_kinematics robot (fr_q f))))
           tr_carry /\
    Forall (fun f => fr_carry f = None) (tr_before ++ tr_after).
Proof.
  apply (pick_and_place_carry_fidelity init_sim 0); [lia|reflexivity|reflexivity].
Defined.

(** ** Inversion of successful runs *)

Lemma bind_inv {A B} (m : M A) (k : A -> M B) s b t s2 :
  bind m k s = inr (b, t, s2) ->
  exists a t1 s1 t2, m s = inr (a, t1, s1) /\ k a s1 = inr (b, t2, s2) /\ t = t1 ++ t2.
Proof.
  unfold bind; destruct (m s) as [e|[[a t1] s1]]; [discriminate|].
  destruct (k a s1) as [e|[[b' t2] s2']] eqn:E; [discriminate|].
  intros H; injection H as <- <- <-; eauto 7.
Qed.

Ltac inv_M :=
  repeat (cbv beta iota in *;
  match goal with
  | H : bind _ _ _ = inr _ |- _ =>
      apply bind_inv in H; destruct H as (? & ? & ? & ? & ? & ? & ?)
  | H : get _ = inr _ |- _ => unfold get in H; injection H; clear H; intros; subst
  | H : put _ _ = inr _ |- _ => unfold put in H; injection H; clear H; intros; subst
  | H : ret _ _ = inr _ |- _ => unfold ret in H; injection H; clear H; intros; subst
  | H : emit _ _ = inr _ |- _ => unfold emit in H; injection H; clear H; intros; subst
  | H : raise _ _ = inr _ |- _ => discriminate H
  | H : py_set ?l ?k ?v _ = inr _ |- _ =>
      unfold py_set in H; let E := fresh "Eset" in
      destruct (list_set l k v) eqn:E; [|discriminate H]
  | H : py_get ?l ?k _ = inr _ |- _ =>
      unfold py_get in H; let E := fresh "Eget" in
      destruct (nth_error l k) eqn:E; [|discriminate H]
  | H : py_div ?i ?n _ = inr _ |- _ =>
      unfold py_div in H; destruct (Z.eqb n 0); [discriminate H|]
  end).

Lemma list_set_nth_other {A} (l : list A) k v l' j :
  list_set l k v = Some l' -> j <> k -> nth_error l' j = nth_error l j.
Proof.
  revert k j l'; induction l as [|h t IH]; intros [|k] j l' H Hj; cbn in H; try discriminate.
  - injection H as <-; destruct j; [lia|reflexivity].
  - destruct (list_set t k v) eqn:E; cbn in H; [|discriminate].
    injection H as <-; destruct j; [reflexivity|cbn; eapply IH; eauto].
Qed.

Lemma keeps_except_refl c s : keeps_except c s s.
Proof. repeat split; auto. Qed.

Lemma keeps_except_trans c s1 s2 s3 :
  keeps_except c s1 s2 -> keeps_except c s2 s3 -> keeps_except c s1 s3.
Proof.
  intros (L1 & D1 & O1) (L2 & D2 & O2); repeat split; try congruence.
  intros j Hj; rewrite O2, O1 by exact Hj; reflexivity.
Qed.

Lemma animate_step_keeps qs qt steps c i s t s' :
  animate_step qs qt steps c i s = inr (tt, t, s') -> keeps_except c s s'.
Proof.
  intros H; unfold animate_step in H; destruct c as [k|]; inv_M.
  - repeat split; cbn.
    + eapply list_set_length; eauto.
    + intros j Hj; eapply list_set_nth_other; [eassumption|].
      intros ->; apply Hj; reflexivity.
  - apply keeps_except_refl.
Qed.

Lemma for_each_keeps qs qt steps c l s t s' :
  for_each l (animate_step qs qt steps c) s = inr (tt, t, s') -> keeps_except c s s'.
Proof.
  revert s t; induction l as [|i l IH]; intros s t H; cbn [for_each] in H.
  - inv_M; apply keeps_except_refl.
  - apply bind_inv in H as ([] & t1 & s1 & t2 & H1 & H2 & _).
    eapply keeps_except_trans; [eapply animate_step_keeps; eauto|eapply IH; eauto].
Qed.

Lemma animate_segment_keeps qt steps c s t s' :
  animate_segment qt steps c s = inr (tt, t, s') ->
  keeps_except c s s' /\ q_current s' = qt.
Proof.
  intros H; unfold animate_segment in H; inv_M.
  match goal with H : for_each _ _ _ = inr (?u, _, _) |- _ =>
    destruct u; apply for_each_keeps in H; destruct H as (L & D & O) end.
  repeat split; cbn; auto.
Qed.

(** A successful call on an object not yet placed runs, in this order, the six
    segments of the source with the detach and the done flag in between. *)
Lemma pick_and_place_inv s k t s' :
  pick_and_place k s = inr (tt, t, s') ->
  nth_error (object_done s) k = Some false ->
  exists pick place s1 s2 s3 s4 s5 objs dn t1 t2 t3 t4 t5 t6,
    nth_error floor_positions k = Some pick /\
    nth_error shelf_positions k = Some place /\
    animate_segment (inverse_kinematics robot (mkV (vx pick) (vy pick) 0.75)) 60 None s
      = inr (tt, t1, s1) /\
    animate_segment (inverse_kinematics robot pick) 40 None s1 = inr (tt, t2, s2) /\
    animate_segment (inverse_kinematics robot (mkV (vx pick) (vy pick) 0.75)) 40 (Some k) s2
      = inr (tt, t3, s3) /\
    animate_segment (inverse_kinematics robot (mkV (vx place) (vy place) 0.75)) 60 (Some k) s3
      = inr (tt, t4, s4) /\
    animate_segment (inverse_kinematics robot place) 40 (Some k) s4 = inr (tt, t5, s5) /\
    list_set (objects_pos s5) k place = Some objs /\
    list_set (object_done s5) k true = Some dn /\
    animate_segment (inverse_kinematics robot (mkV (vx place) (vy place) 0.75)) 40 None
      (set_done (set_objs s5 objs) dn) = inr (tt, t6, s') /\
    t = t1 ++ t2 ++ t3 ++ t4 ++ t5 ++ t6.
Proof.
  intros H Hd; unfold pick_and_place in H; inv_M.
  match goal with E : Some _ = Some false |- _ => injection E; clear E; intros; subst end.
  inv_M.
  repeat match goal with u : unit |- _ => destruct u end.
  do 15 eexists; do 2 (split; [reflexivity|]).
  do 5 (split; [match goal with
    |- animate_segment ?q ?n ?c ?s0 = _ =>
      match goal with H : animate_segment q n c s0 = _ |- _ => exact H end end|]).
  split; [match goal with H : list_set (objects_pos _) _ _ = Some _ |- _ => exact H end|].
  split; [match goal with H : list_set (object_done _) _ _ = Some _ |- _ => exact H end|].
  split; [match goal with H : animate_segment _ _ _ _ = inr (_, _, s') |- _ => exact H end|].
  rewrite ?app_nil_l; reflexivity.
Qed.

Lemma bind_inl {A B} (m : M A) (k : A -> M B) s e :
  m s = inl e -> bind m k s = inl e.
Proof. intros H; unfold bind; rewrite H; reflexivity. Qed.

Lemma bind_inr_inl {A B} (m : M A) (k : A -> M B) s a t1 s1 e :
  m s = inr (a, t1, s1) -> k a s1 = inl e -> bind m k s = inl e.
Proof. intros H1 H2; unfold bind; rewrite H1, H2; reflexivity. Qed.

Lemma list_set_none {A} (l : list A) k v :
  (length l <= k)%nat -> list_set l k v = None.
Proof.
  revert k; induction l as [|h t IH]; intros [|k] Hk; cbn in *; try lia; try reflexivity.
  rewrite IH by lia; reflexivity.
Qed.

Lemma range_head n : (0 < n)%Z -> exists r, range n = 0%Z :: r.
Proof.
  intros Hn; unfold range.
  destruct (Z.to_nat n) eqn:E; [lia|]; cbn; eauto.
Qed.

Lemma range_in i n : In i (range n) -> (0 <= i < n)%Z.
Proof.
  unfold range; intros H; apply in_map_iff in H as (m & <- & Hm).
  apply in_seq in Hm; lia.
Qed.

Lemma lerp_0 qs qt : lerp 0 qs qt = qs.
Proof. destruct qs; unfold lerp; cbn; f_equal; ring. Qed.

Lemma pick_and_place_done_ret s k :
  nth_error (object_done s) k = Some true -> pick_and_place k s = inr (tt, [], s).
Proof. intros Hd; unfold pick_and_place, bind, get, py_get; rewrite Hd; reflexivity. Qed.

Lemma shelf_positions_nth k place :
  nth_error shelf_positions k = Some place ->
  exists z, place = mkV shelf_x shelf_y z.
Proof.
  unfold shelf_positions; rewrite nth_error_map.
  destruct (nth_error shelf_levels k); cbn; intros H; [|discriminate].
  injection H as <-; eauto.
Qed.

(** What a full cycle on an object not yet placed does to the state. *)
Lemma pick_and_place_frame s k :
  (k < 3)%nat -> length (objects_pos s) = 3%nat ->
  nth_error (object_done s) k = Some false ->
  exists tr s', pick_and_place k s = inr (tt, tr, s') /\
    length (objects_pos s') = 3%nat /\
    length (object_done s') = length (object_done s) /\
    nth_error (objects_pos s') k = nth_error shelf_positions k /\
    nth_error (object_done s') k = Some true /\
    q_current s' = inverse_kinematics robot (mkV shelf_x shelf_y 0.75) /\
    (forall j, j <> k -> nth_error (objects_pos s') j = nth_error (objects_pos s) j /\
                         nth_error (object_done s') j = nth_error (object_done s) j).
Proof.
  intros Hk Hl Hd.
  destruct (pick_and_place_run s k Hk Hl Hd) as (tb & tc & ta & s' & E & _ & _ & _ & Ho & Hdn).
  exists (tb ++ tc ++ ta), s'; split; [exact E|].
  destruct (pick_and_place_inv _ _ _ _ E Hd) as (pick & place & s1 & s2 & s3 & s4 & s5 & objs
    & dn & t1 & t2 & t3 & t4 & t5 & t6 & Hpick & Hplace & E1 & E2 & E3 & E4 & E5 & Eo & Ed & E6 & _).
  apply animate_segment_keeps in E1 as [(Ln1 & D1 & O1) _].
  apply animate_segment_keeps in E2 as [(Ln2 & D2 & O2) _].
  apply animate_segment_keeps in E3 as [(Ln3 & D3 & O3) _].
  apply animate_segment_keeps in E4 as [(Ln4 & D4 & O4) _].
  apply animate_segment_keeps in E5 as [(Ln5 & D5 & O5) _].
  apply animate_segment_keeps in E6 as [(Ln6 & D6 & O6) Q6].
  cbn [objects_pos object_done set_done set_objs] in Ln6, D6, O6.
  pose proof (list_set_length _ _ _ _ Eo) as Lo.
  pose proof (list_set_length _ _ _ _ Ed) as Ld.
  split; [congruence|].
  split; [rewrite D6, Ld, D5, D4, D3, D2, D1; reflexivity|].
  split; [exact Ho|]; split; [exact Hdn|].
  split.
  { rewrite Q6; destruct (shelf_positions_nth k place Hplace) as [z ->]; reflexivity. }
  intros j Hj.
  assert (Hs : Some k <> Some j) by congruence.
  split.
  - rewrite O6 by discriminate.
    rewrite (list_set_nth_other _ _ _ _ _ Eo Hj).
    rewrite O5, O4, O3 by exact Hs; rewrite O2, O1 by discriminate; reflexivity.
  - rewrite D6, (list_set_nth_other _ _ _ _ _ Ed Hj), D5, D4, D3, D2, D1; reflexivity.
Qed.

(** ** Further properties of the simulation *)

(** [go_home] runs from any state without error: it emits [61] frames, none
    of which carries an object, ends at [q_home], and leaves every object
    position and every [object_done] flag as it was. *)
Theorem go_home_keeps_objects s :
  exists tr s', go_home s = inr (tt, tr, s') /\ length tr = 61%nat /\
    Forall (fun f => fr_carry f = None) tr /\ q_current s' = q_home /\
    objects_pos s' = objects_pos s /\ object_done s' = object_done s.
Proof.
  destruct (animate_segment_spec q_home 60 None s ltac:(lia) I)
    as (tr & s' & E & Hq & F & Hc & Hd & _ & Ho).
  exists tr, s'; unfold go_home; split; [exact E|].
  split; [rewrite (segment_length _ _ 60 _ ltac:(lia) Hq); reflexivity|].
  split; [eapply Forall_impl; [|exact F]; intros f (_ & H & _); exact H|].
  auto.
Qed.

(** A segment with a positive step count starts from the current joint
    vector: its first frame is [q_current], it has [steps + 1] frames, and
    every frame is a convex combination of [q_current] and the goal. *)
Theorem animate_segment_interpolates qt steps c s :
  (0 < steps)%Z -> carry_ok c (objects_pos s) ->
  exists f tr s', animate_segment qt steps c s = inr (tt, f :: tr, s') /\
    fr_q f = q_current s /\ length (f :: tr) = Z.to_nat (steps + 1) /\
    Forall (fun g => exists alpha, 0 <= alpha <= 1 /\
                       fr_q g = lerp alpha (q_current s) qt) (f :: tr).
Proof.
  intros Hn Hc.
  destruct (animate_segment_spec qt steps c s ltac:(lia) Hc)
    as (tr & s' & E & Hq & _ & _ & _ & _ & _).
  pose proof (segment_length _ _ steps _ ltac:(lia) Hq) as Hlen.
  destruct tr as [|f tr]; [cbn in Hlen; lia|].
  exists f, tr, s'; split; [exact E|].
  split.
  { destruct (range_head (steps + 1) ltac:(lia)) as [r Hr].
    rewrite Hr in Hq; cbn in Hq; injection Hq as Hf _.
    rewrite Hf; unfold Rdiv; rewrite Rmult_0_l; apply lerp_0. }
  split; [exact Hlen|].
  apply Forall_forall; intros g Hg.
  apply (in_map fr_q) in Hg; rewrite Hq in Hg.
  apply in_map_iff in Hg as (i & Hgi & Hi); apply range_in in Hi.
  exists (IZR i / IZR steps); split; [|symmetry; exact Hgi].
  assert (0 < IZR steps) by (apply IZR_lt; lia).
  assert (0 <= IZR i <= IZR steps) by (split; apply IZR_le; lia).
  split.
  - unfold Rdiv; apply Rmult_le_pos; [lra|left; apply Rinv_0_lt_compat; lra].
  - apply (Rmult_le_reg_r (IZR steps)); [lra|].
    unfold Rdiv; rewrite Rmult_assoc, Rinv_l by lra; lra.
Qed.

Lemma animate_segment_interpolates_witness :
  exists f tr s', animate_segment q_home 60 (Some 1%nat) init_sim = inr (tt, f :: tr, s') /\
    fr_q f = q_current init_sim /\ length (f :: tr) = Z.to_nat (60 + 1) /\
    Forall (fun g => exists alpha, 0 <= alpha <= 1 /\
                       fr_q g = lerp alpha (q_current init_sim) q_home) (f :: tr).
Proof. apply animate_segment_interpolates; [lia|cbn; lia]. Defined.

(** A carry index beyond [objects_pos] makes a segment with a positive step
    count raise [IndexError] at its first iteration. *)
Theorem animate_segment_bad_carry qt steps k s :
  (0 < steps)%Z -> (length (objects_pos s) <= k)%nat ->
  animate_segment qt steps (Some k) s = inl IndexError.
Proof.
  intros Hn Hk; unfold animate_segment.
  eapply bind_inr_inl; [reflexivity|]; cbv beta.
  destruct (range_head (steps + 1) ltac:(lia)) as [r Hr]; rewrite Hr.
  apply bind_inl; cbn [for_each]; apply bind_inl; unfold animate_step.
  eapply bind_inr_inl.
  { unfold py_div; replace (Z.eqb steps 0) with false
      by (symmetry; apply Z.eqb_neq; lia); reflexivity. }
  cbv beta zeta iota; apply bind_inl.
  eapply bind_inr_inl; [reflexivity|]; cbv beta; apply bind_inl.
  unfold py_set; rewrite list_set_none by exact Hk; reflexivity.
Qed.

Lemma animate_segment_bad_carry_witness :
  animate_segment q_home 60 (Some 3%nat) init_sim = inl IndexError.
Proof. apply animate_segment_bad_carry; [lia|cbn; lia]. Defined.

(** An object index beyond [object_done] makes [pick_and_place] raise
    [IndexError] before any motion. *)
Theorem pick_and_place_bad_index s k :
  (length (object_done s) <= k)%nat -> pick_and_place k s = inl IndexError.
Proof.
  intros Hk; unfold pick_and_place.
  eapply bind_inr_inl; [reflexivity|]; cbv beta; apply bind_inl.
  unfold py_get; rewrite (proj2 (nth_error_None _ _) Hk); reflexivity.
Qed.

Lemma pick_and_place_bad_index_witness : pick_and_place 3 init_sim = inl IndexError.
Proof. apply pick_and_place_bad_index; cbn; lia. Defined.

(** A cycle on object [k] (not yet placed) leaves the position and the
    [object_done] flag of every other object unchanged. *)
Theorem pick_and_place_others_unchanged s k :
  (k < 3)%nat -> length (objects_pos s) = 3%nat ->
  nth_error (object_done s) k = Some false ->
  exists tr s', pick_and_place k s = inr (tt, tr, s') /\
    forall j, j <> k ->
      nth_error (objects_pos s') j = nth_error (objects_pos s) j /\
      nth_error (object_done s') j = nth_error (object_done s) j.
Proof.
  intros Hk Hl Hd.
  destruct (pick_and_place_frame s k Hk Hl Hd) as (tr & s' & E & _ & _ & _ & _ & _ & Ho).
  exists tr, s'; auto.
Qed.

Lemma pick_and_place_others_unchanged_witness :
  exists tr s', pick_and_place 1 init_sim = inr (tt, tr, s') /\
    forall j, j <> 1%nat ->
      nth_error (objects_pos s') j = nth_error (objects_pos init_sim) j /\
      nth_error (object_done s') j = nth_error (object_done init_sim) j.
Proof. apply pick_and_place_others_unchanged; [lia|reflexivity|reflexivity]. Defined.

(** After a cycle the arm rests at [inverse_kinematics] of the pre-place
    point [(shelf_x, shelf_y, 0.75)], whatever the object; the lift clamp
    puts its end effector at height [0.40], not at the safe height [0.75]. *)
Theorem pick_and_place_rest_pose s k :
  (k < 3)%nat -> length (objects_pos s) = 3%nat ->
  nth_error (object_done s) k = Some false ->
  exists tr s', pick_and_place k s = inr (tt, tr, s') /\
    q_current s' = inverse_kinematics robot (mkV shelf_x shelf_y 0.75) /\
    vz (ee (forward_kinematics robot (q_current s'))) = 0.40.
Proof.
  intros Hk Hl Hd.
  destruct (pick_and_place_frame s k Hk Hl Hd) as (tr & s' & E & _ & _ & _ & _ & Hq & _).
  exists tr, s'; split; [exact E|]; split; [exact Hq|].
  rewrite Hq, fk_ee_z, inverse_kinematics_j4; unfold robot, default_robot; cbn [vz z_base z_min z_max].
  rewrite (clip_above (0.75 - 0.25)) by lra; rewrite clip_id by lra; lra.
Qed.

Lemma pick_and_place_rest_pose_witness :
  exists tr s', pick_and_place 0 init_sim = inr (tt, tr, s') /\
    q_current s' = inverse_kinematics robot (mkV shelf_x shelf_y 0.75) /\
    vz (ee (forward_kinematics robot (q_current s'))) = 0.40.
Proof. apply pick_and_place_rest_pose; [lia|reflexivity|reflexivity]. Defined.

(** Calling [pick_and_place k] again after a cycle on [k] does nothing: no
    frame, no change of state. *)
Theorem pick_and_place_repeat_noop s k :
  (k < 3)%nat -> length (objects_pos s) = 3%nat ->
  nth_error (object_done s) k = Some false ->
  exists tr s', pick_and_place k s = inr (tt, tr, s') /\
    pick_and_place k s' = inr (tt, [], s').
Proof.
  intros Hk Hl Hd.
  destruct (pick_and_place_frame s k Hk Hl Hd) as (tr & s' & E & _ & _ & _ & Hdn & _).
  exists tr, s'; split; [exact E|apply pick_and_place_done_ret, Hdn].
Qed.

Lemma pick_and_place_repeat_noop_witness :
  exists tr s', pick_and_place 2 init_sim = inr (tt, tr, s') /\
    pick_and_place 2 s' = inr (tt, [], s').
Proof. apply pick_and_place_repeat_noop; [lia|reflexivity|reflexivity]. Defined.

(** The last frame in which object [k] is carried is the last frame of the
    descent to [q_place = inverse_kinematics(place_pos)]: it shows the object
    on [forward_kinematics(q_place)]; the frames after it carry nothing, and
    the cycle leaves the object at [place_pos] itself. *)
Theorem pick_and_place_last_carry_frame s k :
  (k < 3)%nat -> length (objects_pos s) = 3%nat ->
  nth_error (object_done s) k = Some false ->
  exists place tr f tr' s',
    nth_error shelf_positions k = Some place /\
    pick_and_place k s = inr (tt, tr ++ f :: tr', s') /\
    fr_carry f = Some k /\ fr_q f = inverse_kinematics robot place /\
    nth_error (fr_objs f) k = Some (ee (forward_kinematics robot (fr_q f))) /\
    Forall (fun g => fr_carry g = None) tr' /\
    nth_error (objects_pos s') k = Some place.
Proof.
  intros Hk Hl Hd.
  destruct (pick_and_place_run s k Hk Hl Hd) as (tb & tc & ta & s' & E & _ & _ & _ & Ho & _).
  destruct (pick_and_place_inv _ _ _ _ E Hd) as (pick & place & s1 & s2 & s3 & s4 & s5 & objs
    & dn & t1 & t2 & t3 & t4 & t5 & t6 & Hpick & Hplace & E1 & E2 & E3 & E4 & E5 & Eo & Ed & E6 & HT).
  apply animate_segment_keeps in E1 as [(Ln1 & _ & _) _].
  apply animate_segment_keeps in E2 as [(Ln2 & _ & _) _].
  apply animate_segment_keeps in E3 as [(Ln3 & _ & _) _].
  apply animate_segment_keeps in E4 as [(Ln4 & _ & _) _].
  destruct (animate_segment_spec (inverse_kinematics robot place) 40 (Some k) s4 ltac:(lia)
              ltac:(cbn; lia)) as (tr5 & s5' & E5' & Hq5 & F5 & _).
  rewrite E5 in E5'; injection E5' as <- <-.
  destruct (animate_segment_spec (inverse_kinematics robot (mkV (vx place) (vy place) 0.75))
              40 None (set_done (set_objs s5 objs) dn) ltac:(lia) I)
    as (tr6 & s6' & E6' & _ & F6 & _).
  rewrite E6 in E6'; injection E6' as <- <-.
  rewrite range_succ, map_app in Hq5 by lia; cbn in Hq5.
  apply map_eq_app in Hq5 as (t5a & t5b & -> & _ & Hlast).
  apply map_eq_cons in Hlast as (f & tl & -> & Hf & Htl).
  destruct tl; [|discriminate].
  rewrite Forall_app, Forall_cons_iff in F5; destruct F5 as (_ & (Hj & Hc & Ho') & _).
  exists place, (t1 ++ t2 ++ t3 ++ t4 ++ t5a), f, t6, s'.
  split; [exact Hplace|].
  split; [rewrite E, HT, <- !app_assoc; reflexivity|].
  split; [exact Hc|].
  split; [rewrite Hf, Rdiv_diag by (apply not_0_IZR; lia); apply lerp_1|].
  split; [rewrite <- Hj; apply Ho'; reflexivity|].
  split; [eapply Forall_impl; [|exact F6]; intros g (_ & H & _); exact H|].
  rewrite Ho; exact Hplace.
Qed.

Lemma pick_and_place_last_carry_frame_witness :
  exists place tr f tr' s',
    nth_error shelf_positions 0 = Some place /\
    pick_and_place 0 init_sim = inr (tt, tr ++ f :: tr', s') /\
    fr_carry f = Some 0%nat /\ fr_q f = inverse_kinematics robot place /\
    nth_error (fr_objs f) 0 = Some (ee (forward_kinematics robot (fr_q f))) /\
    Forall (fun g => fr_carry g = None) tr' /\
    nth_error (objects_pos s') 0 = Some place.
Proof. apply pick_and_place_last_carry_frame; [lia|reflexivity|reflexivity]. Defined.

(** From the initial state, [pick_and_place 0], [1] and [2] in turn all run
    without error and leave the three objects at [shelf_positions], all
    marked done. *)
Theorem pick_and_place_all_three :
  exists t1 t2 t3 s1 s2 s3,
    pick_and_place 0 init_sim = inr (tt, t1, s1) /\
    pick_and_place 1 s1 = inr (tt, t2, s2) /\
    pick_and_place 2 s2 = inr (tt, t3, s3) /\
    objects_pos s3 = shelf_positions /\ object_done s3 = [true; true; true].
Proof.
  destruct (pick_and_place_frame init_sim 0 ltac:(lia) eq_refl eq_refl)
    as (ta & s1 & E1 & Lo1 & Ld1 & Ho1 & Hd1 & _ & Hj1).
  destruct (pick_and_place_frame s1 1 ltac:(lia) Lo1
              ltac:(rewrite (proj2 (Hj1 1%nat ltac:(lia))); reflexivity))
    as (tb & s2 & E2 & Lo2 & Ld2 & Ho2 & Hd2 & _ & Hj2).
  destruct (pick_and_place_frame s2 2 ltac:(lia) Lo2
              ltac:(rewrite (proj2 (Hj2 2%nat ltac:(lia))), (proj2 (Hj1 2%nat ltac:(lia)));
                    reflexivity))
    as (tc & s3 & E3 & Lo3 & Ld3 & Ho3 & Hd3 & _ & Hj3).
  exists ta, tb, tc, s1, s2, s3; do 3 (split; [assumption|]).
  split; apply nth_error_ext; intros [|[|[|j]]].
  - rewrite (proj1 (Hj3 0%nat ltac:(lia))), (proj1 (Hj2 0%nat ltac:(lia))); exact Ho1.
  - rewrite (proj1 (Hj3 1%nat ltac:(lia))); exact Ho2.
  - exact Ho3.
  - rewrite (proj2 (nth_error_None (objects_pos s3) (S (S (S j)))) ltac:(rewrite Lo3; lia)).
    symmetry; apply nth_error_None; cbn; lia.
  - rewrite (proj2 (Hj3 0%nat ltac:(lia))), (proj2 (Hj2 0%nat ltac:(lia))); exact Hd1.
  - rewrite (proj2 (Hj3 1%nat ltac:(lia))); exact Hd2.
  - exact Hd3.
  - rewrite (proj2 (nth_error_None (object_done s3) (S (S (S j))))
               ltac:(rewrite Ld3, Ld2, Ld1; cbn; lia)).
    symmetry; apply nth_error_None; cbn; lia.
Qed.

(** ** Further properties of the kinematics *)

Lemma polar_sq l t : (l * cos t) ^ 2 + (l * sin t) ^ 2 = l ^ 2.
Proof.
  pose proof (sin2_cos2 t) as H; unfold Rsqr in H.
  transitivity (l ^ 2 * (sin t * sin t + cos t * cos t)); [ring|rewrite H; ring].
Qed.

(** [forward_kinematics] keeps the links rigid: [p0] is the origin, [p1] sits
    at [(0, 0, z_base)], [p2] and [p3] stay at height [z_base], and the three
    planar links have lengths [|L1|], [|L2|] and [|L3|]. *)
Theorem forward_kinematics_rigid_links rb q :
  let c := forward_kinematics rb q in
  p0 c = mkV 0 0 0 /\ p1 c = mkV 0 0 (z_base rb) /\
  vz (p2 c) = z_base rb /\ vz (p3 c) = z_base rb /\
  (vx (p2 c) - vx (p1 c)) ^ 2 + (vy (p2 c) - vy (p1 c)) ^ 2 = L1 rb ^ 2 /\
  (vx (p3 c) - vx (p2 c)) ^ 2 + (vy (p3 c) - vy (p2 c)) ^ 2 = L2 rb ^ 2 /\
  (vx (ee c) - vx (p3 c)) ^ 2 + (vy (ee c) - vy (p3 c)) ^ 2 = L3 rb ^ 2.
Proof.
  cbv zeta; unfold forward_kinematics, ee, vadd; cbn [p0 p1 p2 p3 p4 vx vy vz].
  repeat split; try ring.
  - rewrite <- (polar_sq (L1 rb) (j1 q)); ring.
  - rewrite <- (polar_sq (L2 rb) (j1 q + j2 q)); ring.
  - rewrite <- (polar_sq (L3 rb) (j1 q + j2 q + j3 q)); ring.
Qed.

(** Whatever the target, the end effector of
    [forward_kinematics (inverse_kinematics target)] is at the target height
    clamped to the lift range, [z_base + clip(z - z_base, z_min, z_max)]. *)
Theorem inverse_kinematics_reached_height rb t :
  z_min rb <= z_max rb ->
  vz (ee (forward_kinematics rb (inverse_kinematics rb t))) =
    z_base rb + clip (vz t - z_base rb) (z_min rb) (z_max rb).
Proof.
  intros H; rewrite fk_ee_z, inverse_kinematics_j4.
  rewrite (clip_id (clip _ _ _)) by (apply clip_bounds, H); reflexivity.
Qed.

Lemma inverse_kinematics_reached_height_witness :
  vz (ee (forward_kinematics default_robot (inverse_kinematics default_robot (mkV 0.3 0 0.9)))) =
    z_base default_robot + clip (vz (mkV 0.3 0 0.9) - z_base default_robot)
                             (z_min default_robot) (z_max default_robot).
Proof. apply inverse_kinematics_reached_height; cbn; lra. Defined.

(** The last link of the arm placed by [inverse_kinematics] points along the
    heading of the target seen from the base axis: [ee - p3] is
    [L3 * (x, y) / |(x, y)|], whether or not the target is reachable. *)
Theorem inverse_kinematics_last_link_heading rb x y z :
  0 < x ^ 2 + y ^ 2 ->
  let c := forward_kinematics rb (inverse_kinematics rb (mkV x y z)) in
  sqrt (x ^ 2 + y ^ 2) * (vx (ee c) - vx (p3 c)) = L3 rb * x /\
  sqrt (x ^ 2 + y ^ 2) * (vy (ee c) - vy (p3 c)) = L3 rb * y.
Proof.
  intros Hpos; cbv zeta.
  destruct (atan2_polar y x Hpos) as [Hc Hs].
  unfold inverse_kinematics; cbn [vx vy vz].
  destruct (wrist_xy rb x y) as [[phi xw] yw] eqn:Hw.
  unfold wrist_xy in Hw; injection Hw as Hphi _ _; rewrite Hphi in Hc, Hs.
  destruct (clamp_reach rb xw yw) as [[xw' yw'] r2'].
  destruct (cosine_law rb xw' yw' r2') as [q1 q2].
  unfold forward_kinematics, ee, vadd; cbn [p3 p4 vx vy vz j1 j2 j3 j4].
  replace (q1 + q2 + (phi - q1 - q2)) with phi by ring.
  split.
  - transitivity (L3 rb * (cos phi * sqrt (x ^ 2 + y ^ 2))); [ring|rewrite Hc; reflexivity].
  - transitivity (L3 rb * (sin phi * sqrt (x ^ 2 + y ^ 2))); [ring|rewrite Hs; reflexivity].
Qed.

Lemma inverse_kinematics_last_link_heading_witness :
  0 < 1 ^ 2 + 0 ^ 2 /\
  let c := forward_kinematics default_robot (inverse_kinematics default_robot (mkV 1 0 0.25)) in
  sqrt (1 ^ 2 + 0 ^ 2) * (vx (ee c) - vx (p3 c)) = L3 default_robot * 1 /\
  sqrt (1 ^ 2 + 0 ^ 2) * (vy (ee c) - vy (p3 c)) = L3 default_robot * 0.
Proof.
  split; [lra|].
  apply (inverse_kinematics_last_link_heading default_robot 1 0 0.25); lra.
Defined.


